(** * A shallow embedding of [extra/pool/pool.go]

    The pool keeps idle [*redis.Client] values in a buffered Go channel.
    The channel is modelled by its capacity and its FIFO contents, the
    collaborator package [redis] by two oracles ([redis.Dial] and
    the [Close] method of a client) whose answers may depend on everything
    that happened before, and the effects of the pool by an explicit
    history of the calls made to that collaborator.  Executions are
    sequential: one pool method runs to completion before the next one
    starts. *)

From Stdlib Require Import String List ZArith Lia Bool Arith.
Import ListNotations.
Open Scope list_scope.

(** ** The collaborator package [redis] *)

(** A [*redis.Client]: the nil pointer or the address of a client. *)
Inductive Client : Type :=
| nil_client
| client (addr : nat).

(** A non-nil value of the interface type [error]: either a
    [*redis.CmdError] or an error of any other dynamic type. *)
Inductive err : Type :=
| CmdError (msg : string)
| OtherError (msg : string).

(** The interface type [error]; [None] is the nil error. *)
Definition error : Type := option err.

(** The type assertion of [CarefullyPut]: is the dynamic type of the
    error [redis.CmdError] (by pointer)?  Second result of the assertion. *)
Definition is_CmdError (e : err) : bool :=
  match e with
  | CmdError _ => true
  | OtherError _ => false
  end.

(** What the pool asked of the collaborator, with the answer it got. *)
Inductive Event : Type :=
| EvDial (network addr : string) (conn : Client) (e : error)
| EvClose (conn : Client) (e : error).

Definition World : Type := list Event.

Definition is_dial (ev : Event) : bool :=
  match ev with
  | EvDial _ _ _ _ => true
  | EvClose _ _ => false
  end.

Definition is_close (ev : Event) : bool := negb (is_dial ev).

Definition count_dials (w : World) : nat := length (filter is_dial w).

(** The clients on which [Close] was called, in call order. *)
Fixpoint closed_clients (w : World) : list Client :=
  match w with
  | [] => []
  | EvClose c _ :: w' => c :: closed_clients w'
  | EvDial _ _ _ _ :: w' => closed_clients w'
  end.

(** ** Buffered channels of clients, as far as the pool uses them *)

Record chan : Type := mkchan {
  cap : nat;
  buf : list Client
}.

(** [make(chan *redis.Client, n)] *)
Definition make_chan (n : nat) : chan := mkchan n [].

(** [select { case ch <- c: ... default: ... }]: the send goes through
    only when the buffer has room; [None] is the default branch. *)
Definition try_send (ch : chan) (c : Client) : option chan :=
  if length (buf ch) <? cap ch
  then Some (mkchan (cap ch) (buf ch ++ [c]))
  else None.

(** [select { case c := <-ch: ... default: ... }]: [None] is the default
    branch, taken when nothing is buffered. *)
Definition try_recv (ch : chan) : option (Client * chan) :=
  match buf ch with
  | [] => None
  | c :: rest => Some (c, mkchan (cap ch) rest)
  end.

(** How a call ends: it returns, it panics, or it blocks forever (a plain
    send on a full channel with nobody receiving). *)
Inductive outcome (A : Type) : Type :=
| Returns (a : A)
| Panics
| Blocks.

Arguments Returns {A} a.
Arguments Panics {A}.
Arguments Blocks {A}.

(** ** The pool *)

(** [type Pool struct]; the field [Pool] is named [Pool_] here. *)
Record Pool : Type := mkPool {
  Network : string;
  Addr : string;
  Pool_ : chan
}.

Definition with_chan (p : Pool) (ch : chan) : Pool :=
  mkPool (Network p) (Addr p) ch.

(** Number of idle connections and the capacity fixed at construction. *)
Definition idle_count (p : Pool) : nat := length (buf (Pool_ p)).
Definition size_of (p : Pool) : nat := cap (Pool_ p).

(** The capacity respected, and the fields that never change. *)
Definition within_capacity (p : Pool) : Prop := idle_count p <= size_of p.

Definition same_config (p p' : Pool) : Prop :=
  Network p' = Network p /\ Addr p' = Addr p /\ size_of p' = size_of p.

(** The three classes of [CarefullyPut]'s error argument: no error, a
    command error, and anything else, which is taken to mean that the
    connection is broken. *)
Definition connection_level (e : error) : bool :=
  match e with
  | None => false
  | Some x => negb (is_CmdError x)
  end.

(** The calls a user of the pool can make once it is constructed.  The
    second argument of [CarefullyPut] is a [*error]: [None] is the nil
    pointer, [Some e] points to the error value [e]. *)
Inductive op : Type :=
| OpGet
| OpPut (conn : Client)
| OpCarefullyPut (conn : Client) (potentialErr : option error)
| OpEmpty.

(** Two sample collaborators.  [dial_fresh] always succeeds and hands out
    a client whose address is the length of the history; [dial_refuse]
    always fails and returns no client. *)
Definition dial_fresh (w : World) (network addr : string) : Client * error :=
  (client (length w), None).

Definition dial_refuse (w : World) (network addr : string) : Client * error :=
  (nil_client, Some (OtherError "connection refused"%string)).

(** Succeeds on the first [n] dials and is refused afterwards. *)
Definition dial_upto (n : nat) (w : World) (network addr : string)
  : Client * error :=
  if count_dials w <? n then dial_fresh w network addr
  else dial_refuse w network addr.

Definition close_ok (w : World) (c : Client) : error := None.

Definition close_fails (w : World) (c : Client) : error :=
  Some (OtherError "use of closed network connection"%string).

Section PoolCode.

(** [redis.Dial] and the [Close] method of a client, given the history
    so far. *)
Variable redis_Dial : World -> string -> string -> Client * error.
Variable client_Close : World -> Client -> error.

Definition Dial (network addr : string) (w : World)
  : (Client * error) * World :=
  let '(conn, e) := redis_Dial w network addr in
  ((conn, e), w ++ [EvDial network addr conn e]).

Definition Close (conn : Client) (w : World) : error * World :=
  let e := client_Close w conn in
  (e, w ++ [EvClose conn e]).

(** First loop of [NewPool]: [pool[i], err = redis.Dial(network, addr)]
    for [n] slots, leaving at the first [err != nil]. *)
Fixpoint dial_all (network addr : string) (n : nat) (w : World)
  : (list Client * error) * World :=
  match n with
  | O => (([], None), w)
  | S n' =>
      let '((conn, e), w1) := Dial network addr w in
      match e with
      | Some _ => (([conn], e), w1)
      | None =>
          let '((conns, e'), w2) := dial_all network addr n' w1 in
          ((conn :: conns, e'), w2)
      end
  end.

(** Second loop of [NewPool]: [p.Pool <- pool[i]], a plain send; [None]
    when a send finds the channel full. *)
Fixpoint send_all (ch : chan) (conns : list Client) : option chan :=
  match conns with
  | [] => Some ch
  | c :: rest =>
      match try_send ch c with
      | Some ch' => send_all ch' rest
      | None => None
      end
  end.

(** [func NewPool(network, addr string, size int)], returning a pool
    pointer and an error;
    [make([]*redis.Client, size)] panics on a negative [size].  Sizes
    too large for [make] to allocate are left out. *)
Definition NewPool (network addr : string) (size : Z) (w : World)
  : outcome (option Pool * error) * World :=
  if (size <? 0)%Z then (Panics, w)
  else
    let '((pool, e), w1) := dial_all network addr (Z.to_nat size) w in
    match e with
    | Some _ => (Returns (None, e), w1)
    | None =>
        match send_all (make_chan (length pool)) pool with
        | Some ch => (Returns (Some (mkPool network addr ch), None), w1)
        | None => (Blocks, w1)
        end
    end.

(** [func NewOrEmptyPool(network, addr string, size int)], returning a
    pool pointer. *)
Definition NewOrEmptyPool (network addr : string) (size : Z) (w : World)
  : outcome (option Pool) * World :=
  match NewPool network addr size w with
  | (Returns (pool, e), w1) =>
      match e with
      | Some _ =>
          (Returns (Some (mkPool network addr (make_chan (Z.to_nat size)))),
           w1)
      | None => (Returns pool, w1)
      end
  | (Panics, w1) => (Panics, w1)
  | (Blocks, w1) => (Blocks, w1)
  end.

(** [func (p *Pool) Put(conn *redis.Client)]; the result of
    [conn.Close()] is dropped. *)
Definition Put (p : Pool) (conn : Client) (w : World) : Pool * World :=
  match try_send (Pool_ p) conn with
  | Some ch => (with_chan p ch, w)
  | None =>
      let '(_, w1) := Close conn w in
      (p, w1)
  end.

(** [func (p *Pool) CarefullyPut(conn *redis.Client, potentialErr *error)] *)
Definition CarefullyPut (p : Pool) (conn : Client)
           (potentialErr : option error) (w : World) : Pool * World :=
  match potentialErr with
  | Some (Some e) =>
      if negb (is_CmdError e) then (p, w) else Put p conn w
  | _ => Put p conn w
  end.

(** [func (p *Pool) Get()], returning a client pointer and an error. *)
Definition Get (p : Pool) (w : World) : (Client * error) * Pool * World :=
  match try_recv (Pool_ p) with
  | Some (conn, ch) => ((conn, None), with_chan p ch, w)
  | None =>
      let '((conn, e), w1) := Dial (Network p) (Addr p) w in
      let '(p1, w2) := CarefullyPut p conn (Some e) w1 in
      ((conn, e), p1, w2)
  end.

(** The [for { select { ... } }] of [Empty], unrolled at most [fuel]
    times; [None] when the loop has not left by then. *)
Fixpoint Empty_loop (fuel : nat) (p : Pool) (w : World)
  : option (Pool * World) :=
  match fuel with
  | O => None
  | S fuel' =>
      match try_recv (Pool_ p) with
      | Some (conn, ch) =>
          let '(_, w1) := Close conn w in
          Empty_loop fuel' (with_chan p ch) w1
      | None => Some (p, w)
      end
  end.

(** [func (p *Pool) Empty()]: one more turn than there are idle
    connections is enough for the loop to leave. *)
Definition Empty (p : Pool) (w : World) : option (Pool * World) :=
  Empty_loop (S (idle_count p)) p w.

(** One call on the pool, and a sequence of calls one after the other;
    [None] only if the loop of [Empty] did not leave. *)
Definition step (o : op) (s : Pool * World) : option (Pool * World) :=
  let '(p, w) := s in
  match o with
  | OpGet => let '(_, p1, w1) := Get p w in Some (p1, w1)
  | OpPut conn => Some (Put p conn w)
  | OpCarefullyPut conn pe => Some (CarefullyPut p conn pe w)
  | OpEmpty => Empty p w
  end.

Fixpoint run (ops : list op) (s : Pool * World) : option (Pool * World) :=
  match ops with
  | [] => Some s
  | o :: ops' =>
      match step o s with
      | Some s' => run ops' s'
      | None => None
      end
  end.

(** The history after [Close] has been called on each of [conns] in
    turn. *)
Fixpoint close_all (conns : list Client) (w : World) : World :=
  match conns with
  | [] => w
  | c :: rest => close_all rest (snd (Close c w))
  end.

(** A pool handed out by one of the two constructors for [size]. *)
Definition constructed (network addr : string) (size : Z)
           (w : World) (p : Pool) (w1 : World) : Prop :=
  NewPool network addr size w = (Returns (Some p, None), w1) \/
  NewOrEmptyPool network addr size w = (Returns (Some p), w1).

End PoolCode.

(** ** Reading histories and sequences of calls *)

(** The clients that [redis.Dial] returned, in call order. *)
Fixpoint dialed_clients (w : World) : list Client :=
  match w with
  | [] => []
  | EvDial _ _ c _ :: w' => c :: dialed_clients w'
  | EvClose _ _ :: w' => dialed_clients w'
  end.

(** A dial that returned a nil error. *)
Definition dial_ok (ev : Event) : bool :=
  match ev with
  | EvDial _ _ _ None => true
  | _ => false
  end.

(** A dial made with the given network and address, or a close. *)
Definition dial_goes_to (network addr : string) (ev : Event) : Prop :=
  match ev with
  | EvDial n a _ _ => n = network /\ a = addr
  | EvClose _ _ => True
  end.

Definition count_gets (ops : list op) : nat :=
  length (filter (fun o => match o with OpGet => true | _ => false end) ops).

(** The clients that callers handed to [Put] or [CarefullyPut]. *)
Fixpoint given_clients (ops : list op) : list Client :=
  match ops with
  | [] => []
  | OpPut c :: ops' => c :: given_clients ops'
  | OpCarefullyPut c _ :: ops' => c :: given_clients ops'
  | _ :: ops' => given_clients ops'
  end.

(** [n] calls of [Get] one after the other, with what each returned. *)
Fixpoint Get_n (redis_Dial : World -> string -> string -> Client * error)
         (client_Close : World -> Client -> error)
         (n : nat) (p : Pool) (w : World)
  : list (Client * error) * Pool * World :=
  match n with
  | O => ([], p, w)
  | S n' =>
      let '(r, p1, w1) := Get redis_Dial client_Close p w in
      let '(rs, p2, w2) := Get_n redis_Dial client_Close n' p1 w1 in
      (r :: rs, p2, w2)
  end.

(** ** Channels *)

Lemma try_send_Some (ch ch' : chan) (c : Client) :
  try_send ch c = Some ch' ->
  length (buf ch) < cap ch /\ ch' = mkchan (cap ch) (buf ch ++ [c]).
Proof.
  unfold try_send. destruct (Nat.ltb_spec (length (buf ch)) (cap ch)).
  - intros [= <-]. split; [assumption | reflexivity].
  - discriminate.
Qed.

Lemma try_send_None (ch : chan) (c : Client) :
  try_send ch c = None -> cap ch <= length (buf ch).
Proof.
  unfold try_send. destruct (Nat.ltb_spec (length (buf ch)) (cap ch)).
  - discriminate.
  - intros _. assumption.
Qed.

Lemma try_send_room (ch : chan) (c : Client) :
  length (buf ch) < cap ch ->
  try_send ch c = Some (mkchan (cap ch) (buf ch ++ [c])).
Proof.
  intros H. unfold try_send.
  destruct (Nat.ltb_spec (length (buf ch)) (cap ch)); [reflexivity | lia].
Qed.

Lemma try_send_full (ch : chan) (c : Client) :
  cap ch <= length (buf ch) -> try_send ch c = None.
Proof.
  intros H. unfold try_send.
  destruct (Nat.ltb_spec (length (buf ch)) (cap ch)); [lia | reflexivity].
Qed.

Lemma send_all_fits (conns : list Client) :
  forall (n : nat) (b : list Client),
    length b + length conns <= n ->
    send_all (mkchan n b) conns = Some (mkchan n (b ++ conns)).
Proof.
  induction conns as [| c rest IH]; intros n b Hlen; simpl in *.
  - now rewrite app_nil_r.
  - rewrite try_send_room by (simpl; lia). simpl.
    rewrite IH by (rewrite length_app; simpl; lia).
    now rewrite <- app_assoc.
Qed.

Lemma closed_clients_app (w1 w2 : World) :
  closed_clients (w1 ++ w2) = closed_clients w1 ++ closed_clients w2.
Proof.
  induction w1 as [| [n a c e | c e] w1 IH]; simpl; [reflexivity | assumption |].
  now rewrite IH.
Qed.

Lemma count_dials_app (w1 w2 : World) :
  count_dials (w1 ++ w2) = count_dials w1 + count_dials w2.
Proof.
  unfold count_dials. now rewrite filter_app, length_app.
Qed.

Section PoolFacts.

Variable dial : World -> string -> string -> Client * error.
Variable close : World -> Client -> error.

(** ** [Put] *)

Lemma Put_room (p : Pool) (conn : Client) (w : World) :
  idle_count p < size_of p ->
  Put close p conn w =
    (with_chan p (mkchan (size_of p) (buf (Pool_ p) ++ [conn])), w).
Proof.
  intros H. unfold Put. now rewrite try_send_room.
Qed.

Lemma Put_full (p : Pool) (conn : Client) (w : World) :
  size_of p <= idle_count p ->
  Put close p conn w = (p, w ++ [EvClose conn (close w conn)]).
Proof.
  intros H. unfold Put. now rewrite try_send_full.
Qed.

(** C6: [Put] buffers the connection when the channel has room, and
    otherwise calls [Close] on it once and leaves the pool as it was.
    It is a total function with no error among its results, and the
    pool it leaves does not depend on what [Close] answers: a failing
    [Close] only shows in the history. *)
Theorem Put_buffers_or_closes (p : Pool) (conn : Client) (w : World) :
  (idle_count p < size_of p ->
     Put close p conn w =
       (with_chan p (mkchan (size_of p) (buf (Pool_ p) ++ [conn])), w)) /\
  (size_of p <= idle_count p ->
     Put close p conn w = (p, w ++ [EvClose conn (close w conn)])) /\
  (forall close' : World -> Client -> error,
     fst (Put close' p conn w) = fst (Put close p conn w)).
Proof.
  split; [apply Put_room | split; [apply Put_full |]].
  intros close'. unfold Put.
  destruct (try_send (Pool_ p) conn); reflexivity.
Qed.

Lemma with_chan_same (p : Pool) :
  with_chan p (mkchan (size_of p) (buf (Pool_ p))) = p.
Proof.
  destruct p as [n a [k b]]. reflexivity.
Qed.

Lemma Put_history (p : Pool) (conn : Client) (w : World) :
  exists evs,
    snd (Put close p conn w) = w ++ evs /\
    forallb is_close evs = true /\
    incl (closed_clients evs) [conn].
Proof.
  unfold Put. destruct (try_send (Pool_ p) conn); simpl.
  - exists []. rewrite app_nil_r. repeat split. apply incl_nil_l.
  - exists [EvClose conn (close w conn)]. repeat split. apply incl_refl.
Qed.

Lemma Put_keeps (p : Pool) (conn : Client) (w : World) :
  within_capacity p ->
  within_capacity (fst (Put close p conn w)) /\
  same_config p (fst (Put close p conn w)).
Proof.
  unfold within_capacity, same_config, Put. intros Hok.
  destruct (try_send (Pool_ p) conn) as [ch |] eqn:Hs; simpl.
  - apply try_send_Some in Hs. destruct Hs as [Hlt ->].
    unfold idle_count, size_of in *. simpl.
    rewrite length_app. simpl. repeat split; lia.
  - repeat split; assumption.
Qed.

(** ** [CarefullyPut] *)

Lemma CarefullyPut_sound (p : Pool) (conn : Client) (e : error) (w : World) :
  connection_level e = false ->
  CarefullyPut close p conn (Some e) w = Put close p conn w.
Proof.
  destruct e as [x |]; simpl; [| reflexivity].
  intros H. now rewrite H.
Qed.

Lemma CarefullyPut_broken (p : Pool) (conn : Client) (e : error) (w : World) :
  connection_level e = true ->
  CarefullyPut close p conn (Some e) w = (p, w).
Proof.
  destruct e as [x |]; simpl; [| discriminate].
  intros H. now rewrite H.
Qed.

Lemma CarefullyPut_cases (p : Pool) (conn : Client) (pe : option error)
      (w : World) :
  CarefullyPut close p conn pe w = Put close p conn w \/
  CarefullyPut close p conn pe w = (p, w).
Proof.
  destruct pe as [[x |] |]; simpl; auto.
  destruct (is_CmdError x); simpl; auto.
Qed.

Lemma CarefullyPut_history (p : Pool) (conn : Client) (pe : option error)
      (w : World) :
  exists evs,
    snd (CarefullyPut close p conn pe w) = w ++ evs /\
    forallb is_close evs = true /\
    incl (closed_clients evs) [conn].
Proof.
  destruct (CarefullyPut_cases p conn pe w) as [-> | ->].
  - apply Put_history.
  - exists []. simpl. rewrite app_nil_r. repeat split. apply incl_nil_l.
Qed.

Lemma CarefullyPut_keeps (p : Pool) (conn : Client) (pe : option error)
      (w : World) :
  within_capacity p ->
  within_capacity (fst (CarefullyPut close p conn pe w)) /\
  same_config p (fst (CarefullyPut close p conn pe w)).
Proof.
  intros Hok. destruct (CarefullyPut_cases p conn pe w) as [-> | ->].
  - now apply Put_keeps.
  - simpl. unfold same_config. repeat split; assumption.
Qed.

(** C5, as amended: [CarefullyPut] is [Put] when the error is nil or a
    command error (and also when the error pointer itself is nil); on any
    other error it changes neither the pool nor the history, so the call
    never adds the connection to the idle buffer: the connection is idle
    after the call exactly when it was idle before it. *)
Theorem CarefullyPut_by_error_class (p : Pool) (conn : Client) (e : error)
        (w : World) :
  CarefullyPut close p conn None w = Put close p conn w /\
  (connection_level e = false ->
     CarefullyPut close p conn (Some e) w = Put close p conn w) /\
  (connection_level e = true ->
     CarefullyPut close p conn (Some e) w = (p, w) /\
     (In conn (buf (Pool_ (fst (CarefullyPut close p conn (Some e) w))))
      <-> In conn (buf (Pool_ p)))).
Proof.
  split; [reflexivity |]. split.
  - apply CarefullyPut_sound.
  - intros H. rewrite (CarefullyPut_broken p conn e w H). simpl.
    split; [reflexivity | apply iff_refl].
Qed.

(** ** [Get] *)

Lemma Get_pops (p : Pool) (w : World) (c : Client) (rest : list Client) :
  buf (Pool_ p) = c :: rest ->
  Get dial close p w = ((c, None), with_chan p (mkchan (size_of p) rest), w).
Proof.
  intros H. unfold Get, try_recv. now rewrite H.
Qed.

Lemma Get_dials (p : Pool) (w : World) (conn : Client) (e : error) :
  idle_count p = 0 ->
  dial w (Network p) (Addr p) = (conn, e) ->
  Get dial close p w =
    ((conn, e),
     fst (CarefullyPut close p conn (Some e)
            (w ++ [EvDial (Network p) (Addr p) conn e])),
     snd (CarefullyPut close p conn (Some e)
            (w ++ [EvDial (Network p) (Addr p) conn e]))).
Proof.
  intros H0 Hd. unfold Get, try_recv, idle_count in *.
  destruct (buf (Pool_ p)); [| discriminate].
  unfold Dial. rewrite Hd.
  now destruct (CarefullyPut close p conn (Some e) _).
Qed.

Lemma count_dials_closes (evs : World) :
  forallb is_close evs = true -> count_dials evs = 0.
Proof.
  unfold count_dials.
  induction evs as [| [n a c e | c e] evs IH]; simpl;
    [reflexivity | discriminate | assumption].
Qed.

(** The dial branch with room in the channel: the client that [Get]
    returns is the one it has just left idle. *)
Lemma Get_dial_branch_buffers (p : Pool) (w : World) (conn : Client) :
  idle_count p = 0 ->
  0 < size_of p ->
  dial w (Network p) (Addr p) = (conn, None) ->
  Get dial close p w =
    ((conn, None), with_chan p (mkchan (size_of p) [conn]),
     w ++ [EvDial (Network p) (Addr p) conn None]).
Proof.
  intros H0 Hcap Hd. rewrite (Get_dials p w conn None H0 Hd).
  rewrite CarefullyPut_sound by reflexivity.
  rewrite Put_room by lia. simpl.
  unfold idle_count in H0. apply length_zero_iff_nil in H0.
  now rewrite H0.
Qed.

(** C4: with an idle connection in the channel, [Get] returns the oldest
    one with a nil error, takes it out of the channel, and makes no call
    to the collaborator, so no dial. *)
Theorem Get_nonempty_returns_buffered (p : Pool) (w : World) :
  0 < idle_count p ->
  exists c rest,
    buf (Pool_ p) = c :: rest /\
    Get dial close p w =
      ((c, None), with_chan p (mkchan (size_of p) rest), w) /\
    count_dials (snd (Get dial close p w)) = count_dials w.
Proof.
  unfold idle_count. intros H.
  destruct (buf (Pool_ p)) as [| c rest] eqn:Hb; [simpl in H; lia |].
  exists c, rest. rewrite (Get_pops p w c rest Hb). auto.
Qed.

(** C3: with nothing idle, [Get] calls [redis.Dial] exactly once, with
    the pool's [Network] and [Addr], hands the client and the error to
    [CarefullyPut], and returns that same client and error; everything
    after the dial in the history is a [Close]. *)
Theorem Get_empty_dials_once (p : Pool) (w : World) (conn : Client)
        (e : error) :
  idle_count p = 0 ->
  dial w (Network p) (Addr p) = (conn, e) ->
  let w1 := w ++ [EvDial (Network p) (Addr p) conn e] in
  Get dial close p w =
    ((conn, e),
     fst (CarefullyPut close p conn (Some e) w1),
     snd (CarefullyPut close p conn (Some e) w1)) /\
  count_dials (snd (Get dial close p w)) = S (count_dials w) /\
  exists closes,
    snd (Get dial close p w) =
      w ++ EvDial (Network p) (Addr p) conn e :: closes /\
    forallb is_close closes = true.
Proof.
  intros H0 Hd w1. rewrite (Get_dials p w conn e H0 Hd). fold w1.
  destruct (CarefullyPut_history p conn (Some e) w1)
    as (closes & Hw & Hc & _).
  split; [reflexivity |]. cbn [fst snd]. rewrite Hw. subst w1. split.
  - rewrite !count_dials_app, (count_dials_closes closes Hc).
    unfold count_dials at 2. simpl. lia.
  - exists closes. now rewrite <- app_assoc.
Qed.

(** ** [Empty] *)

Lemma close_all_history (conns : list Client) :
  forall w : World,
  exists evs,
    close_all close conns w = w ++ evs /\
    forallb is_close evs = true /\
    closed_clients evs = conns.
Proof.
  induction conns as [| c rest IH]; intros w; simpl.
  - exists []. now rewrite app_nil_r.
  - destruct (IH (w ++ [EvClose c (close w c)])) as (evs & Hw & Hc & Hl).
    exists (EvClose c (close w c) :: evs). rewrite Hw, <- app_assoc.
    simpl. rewrite Hc, Hl. auto.
Qed.

(** The loop leaves as soon as the fuel exceeds what is idle. *)
Lemma Empty_loop_enough (fuel : nat) :
  forall (p : Pool) (w : World),
    idle_count p < fuel ->
    Empty_loop close fuel p w =
      Some (with_chan p (mkchan (size_of p) []),
            close_all close (buf (Pool_ p)) w).
Proof.
  induction fuel as [| fuel IH]; intros p w Hlt; [lia |].
  destruct p as [n a [k b]]. unfold idle_count, size_of in *.
  simpl in *. unfold try_recv. simpl.
  destruct b as [| c rest]; [reflexivity |].
  simpl in *. rewrite IH by (unfold idle_count; simpl; lia).
  reflexivity.
Qed.

Lemma Empty_returns (p : Pool) (w : World) :
  Empty close p w =
    Some (with_chan p (mkchan (size_of p) []),
          close_all close (buf (Pool_ p)) w).
Proof.
  unfold Empty. apply Empty_loop_enough. lia.
Qed.


(** ** Sequences of calls *)

Lemma same_config_refl (p : Pool) : same_config p p.
Proof.
  unfold same_config. auto.
Qed.

Lemma same_config_trans (p q r : Pool) :
  same_config p q -> same_config q r -> same_config p r.
Proof.
  unfold same_config. intros (-> & -> & ->) (-> & -> & ->). auto.
Qed.

Lemma Get_keeps (p : Pool) (w : World) :
  within_capacity p ->
  within_capacity (snd (fst (Get dial close p w))) /\
  same_config p (snd (fst (Get dial close p w))).
Proof.
  intros Hok. unfold Get, try_recv.
  destruct (buf (Pool_ p)) as [| c rest] eqn:Hb.
  - unfold Dial. destruct (dial w (Network p) (Addr p)) as [conn e].
    pose proof (CarefullyPut_keeps p conn (Some e)
                  (w ++ [EvDial (Network p) (Addr p) conn e]) Hok) as H.
    destruct (CarefullyPut close p conn (Some e) _). exact H.
  - simpl. unfold within_capacity, same_config, idle_count, size_of in *.
    rewrite Hb in Hok. simpl in *. repeat split; lia.
Qed.

Lemma step_keeps (o : op) (p : Pool) (w : World) :
  within_capacity p ->
  exists p' w',
    step dial close o (p, w) = Some (p', w') /\
    within_capacity p' /\ same_config p p'.
Proof.
  intros Hok. destruct o as [| conn | conn pe |]; simpl.
  - pose proof (Get_keeps p w Hok) as H.
    destruct (Get dial close p w) as [[r p1] w1]. simpl in H.
    exists p1, w1. tauto.
  - pose proof (Put_keeps p conn w Hok) as H.
    destruct (Put close p conn w) as [p1 w1]. exists p1, w1. tauto.
  - pose proof (CarefullyPut_keeps p conn pe w Hok) as H.
    destruct (CarefullyPut close p conn pe w) as [p1 w1].
    exists p1, w1. tauto.
  - rewrite Empty_returns. eexists _, _. split; [reflexivity |].
    unfold within_capacity, same_config, idle_count, size_of. simpl.
    repeat split; lia.
Qed.

Lemma run_keeps (ops : list op) :
  forall (p : Pool) (w : World),
    within_capacity p ->
    exists p' w',
      run dial close ops (p, w) = Some (p', w') /\
      within_capacity p' /\ same_config p p'.
Proof.
  induction ops as [| o ops IH]; intros p w Hok.
  - exists p, w. simpl. auto using same_config_refl.
  - destruct (step_keeps o p w Hok) as (p1 & w1 & Hs & Hok1 & Hc1).
    destruct (IH p1 w1 Hok1) as (p2 & w2 & Hr & Hok2 & Hc2).
    exists p2, w2. cbn [run]. rewrite Hs.
    eauto using same_config_trans.
Qed.

(** ** The constructors *)

(** What the first loop of [NewPool] leaves: only dials with the given
    network and address; a dial that failed is the error returned; and
    without an error every slot was filled. *)
Lemma dial_all_history (network addr : string) (n : nat) :
  forall (w : World) (conns : list Client) (e : error) (w1 : World),
    dial_all dial network addr n w = ((conns, e), w1) ->
    exists evs,
      w1 = w ++ evs /\
      (forall ev, In ev evs ->
         exists conn e0, ev = EvDial network addr conn e0 /\
                         (e0 <> None -> e = e0)) /\
      (e = None -> length conns = n).
Proof.
  induction n as [| n IH]; intros w conns e w1; simpl.
  - intros [= <- <- <-]. exists []. rewrite app_nil_r.
    split; [reflexivity |]. split; [intros ev [] | reflexivity].
  - unfold Dial. destruct (dial w network addr) as [conn e0].
    destruct e0 as [x |].
    + intros [= <- <- <-]. exists [EvDial network addr conn (Some x)].
      split; [reflexivity |]. split; [| discriminate].
      intros ev [<- | []]. exists conn, (Some x). auto.
    + destruct (dial_all dial network addr n
                  (w ++ [EvDial network addr conn None]))
        as [[conns' e'] w2] eqn:Hrec.
      intros [= <- <- <-].
      destruct (IH _ _ _ _ Hrec) as (evs & -> & Hev & Hlen).
      exists (EvDial network addr conn None :: evs).
      rewrite <- app_assoc. split; [reflexivity |]. split.
      * intros ev [<- | Hin]; [| now apply Hev].
        exists conn, None. split; [reflexivity | congruence].
      * intros He. simpl. now rewrite Hlen.
Qed.

(** For a size that is not negative [NewPool] returns: either a pool
    holding every dialed client, or no pool and the dial error. *)
Lemma NewPool_returns (network addr : string) (size : Z) (w : World) :
  (0 <= size)%Z ->
  forall conns e w1,
    dial_all dial network addr (Z.to_nat size) w = ((conns, e), w1) ->
    NewPool dial network addr size w =
      match e with
      | None =>
          (Returns
             (Some (mkPool network addr (mkchan (Z.to_nat size) conns)),
              None), w1)
      | Some x => (Returns (None, Some x), w1)
      end /\
    (e = None -> length conns = Z.to_nat size).
Proof.
  intros Hsize conns e w1 Hd. unfold NewPool.
  destruct (Z.ltb_spec size 0) as [Hneg | _]; [lia |].
  rewrite Hd.
  destruct (dial_all_history _ _ _ _ _ _ _ Hd) as (evs & _ & _ & Hlen).
  split; [| exact Hlen].
  destruct e as [x |]; [reflexivity |].
  unfold make_chan. rewrite send_all_fits by (simpl; lia).
  simpl. now rewrite (Hlen eq_refl).
Qed.

Lemma NewPool_negative (network addr : string) (size : Z) (w : World) :
  (size < 0)%Z -> NewPool dial network addr size w = (Panics, w).
Proof.
  intros H. unfold NewPool.
  destruct (Z.ltb_spec size 0); [reflexivity | lia].
Qed.

Lemma constructed_config (network addr : string) (size : Z)
      (w : World) (p : Pool) (w1 : World) :
  constructed dial network addr size w p w1 ->
  (0 <= size)%Z /\
  Network p = network /\ Addr p = addr /\
  Z.of_nat (size_of p) = size /\
  within_capacity p.
Proof.
  intros Hc.
  destruct (Z.lt_ge_cases size 0) as [Hneg | Hpos].
  { unfold constructed, NewOrEmptyPool in Hc.
    rewrite (NewPool_negative network addr size w Hneg) in Hc.
    destruct Hc; discriminate. }
  destruct (dial_all dial network addr (Z.to_nat size) w)
    as [[conns e] w2] eqn:Hd.
  destruct (NewPool_returns network addr size w Hpos conns e w2 Hd)
    as [Hnew Hlen].
  unfold constructed, NewOrEmptyPool in Hc. rewrite Hnew in Hc.
  unfold within_capacity, idle_count, size_of.
  destruct e as [x |].
  - destruct Hc as [Hc | Hc]; [discriminate |].
    injection Hc as <- <-. simpl. repeat split; lia.
  - specialize (Hlen eq_refl).
    assert (Hp : p = mkPool network addr (mkchan (Z.to_nat size) conns))
      by (destruct Hc as [Hc | Hc]; congruence).
    subst p. simpl. repeat split; lia.
Qed.


(** C9: if one of the dials made by [NewPool] fails, [NewPool] returns
    that dial's error and a nil pool. *)
Theorem NewPool_dial_failure (network addr : string) (size : Z)
        (w : World) :
  (0 <= size)%Z ->
  exists out evs,
    NewPool dial network addr size w = (out, w ++ evs) /\
    forall conn x,
      In (EvDial network addr conn (Some x)) evs ->
      out = Returns (None, Some x).
Proof.
  intros Hsize.
  destruct (dial_all dial network addr (Z.to_nat size) w)
    as [[conns e] w2] eqn:Hd.
  destruct (NewPool_returns network addr size w Hsize conns e w2 Hd)
    as [Hnew _].
  destruct (dial_all_history _ _ _ _ _ _ _ Hd) as (evs & -> & Hev & _).
  assert (Hfail : forall conn x,
             In (EvDial network addr conn (Some x)) evs -> e = Some x).
  { intros conn x Hin.
    destruct (Hev _ Hin) as (conn' & e0 & Heq & He).
    injection Heq as <- <-. apply He. discriminate. }
  destruct e as [y |]; eexists _, evs; (split; [exact Hnew |]);
    intros conn x Hin; specialize (Hfail conn x Hin); congruence.
Qed.

(** C2: on a pool handed out by either constructor for [size], every
    sequence of [Get], [Put], [CarefullyPut] and [Empty] calls runs to
    its end and leaves at most [size] idle connections. *)
Theorem idle_count_never_exceeds_size (network addr : string) (size : Z)
        (w0 : World) (p0 : Pool) (w1 : World) (ops : list op) :
  constructed dial network addr size w0 p0 w1 ->
  exists p w,
    run dial close ops (p0, w1) = Some (p, w) /\
    (Z.of_nat (idle_count p) <= size)%Z.
Proof.
  intros Hc.
  destruct (constructed_config network addr size w0 p0 w1 Hc)
    as (_ & _ & _ & Hsize & Hok).
  destruct (run_keeps ops p0 w1 Hok) as (p & w & Hr & Hok' & _ & _ & Hs).
  exists p, w. split; [exact Hr |].
  unfold within_capacity in Hok'. lia.
Qed.

(** C10: on a pool constructed with size 0, after any calls, a [Get]
    whose dial succeeds calls [Close] on the client it has just dialed
    and returns that client with a nil error; the pool is unchanged. *)
Theorem Get_size_zero_closes_fresh (network addr : string)
        (w0 : World) (p0 : Pool) (w1 : World) (ops : list op)
        (p : Pool) (w : World) (conn : Client) :
  constructed dial network addr 0 w0 p0 w1 ->
  run dial close ops (p0, w1) = Some (p, w) ->
  dial w network addr = (conn, None) ->
  Get dial close p w =
    ((conn, None), p,
     w ++ [EvDial network addr conn None;
           EvClose conn (close (w ++ [EvDial network addr conn None])
                               conn)]).
Proof.
  intros Hc Hr Hd.
  destruct (constructed_config network addr 0 w0 p0 w1 Hc)
    as (_ & Hn & Ha & Hsize & Hok).
  destruct (run_keeps ops p0 w1 Hok)
    as (p' & w' & Hr' & Hok' & Hn' & Ha' & Hs').
  rewrite Hr in Hr'. injection Hr' as <- <-.
  assert (Hcap : size_of p = 0) by lia.
  assert (Hidle : idle_count p = 0)
    by (unfold within_capacity in Hok'; lia).
  assert (Hnet : Network p = network) by congruence.
  assert (Hadr : Addr p = addr) by congruence.
  rewrite <- Hnet, <- Hadr in Hd.
  rewrite (Get_dials p w conn None Hidle Hd), Hnet, Hadr.
  rewrite CarefullyPut_sound by reflexivity.
  rewrite Put_full by lia. simpl. now rewrite <- app_assoc.
Qed.

End PoolFacts.

Lemma Put_buffers_or_closes_witness :
  let free := mkPool "tcp" "localhost:6379" (mkchan 2 [client 1]) in
  let full := mkPool "tcp" "localhost:6379" (mkchan 1 [client 1]) in
  (idle_count free < size_of free /\
   Put close_fails free (client 2) [] =
     (mkPool "tcp" "localhost:6379" (mkchan 2 [client 1; client 2]), [])) /\
  (size_of full <= idle_count full /\
   Put close_fails full (client 2) [] =
     (full, [EvClose (client 2) (close_fails [] (client 2))])).
Proof.
  intros free full. split; split.
  - unfold idle_count, size_of; simpl; lia.
  - apply (proj1 (Put_buffers_or_closes close_fails free (client 2) [])).
    unfold idle_count, size_of; simpl; lia.
  - unfold idle_count, size_of; simpl; lia.
  - apply (proj1 (proj2 (Put_buffers_or_closes close_fails full (client 2) []))).
    unfold idle_count, size_of; simpl; lia.
Defined.

(** ** The code on concrete pools *)

(** The scenario of a pool of size 2: two idle connections after
    construction, none after two [Get]s, two again after both are put
    back, and a third [Put] on the full pool closes its argument. *)
Example scenario_size_two :
  exists p0 w0,
    NewPool dial_fresh "tcp" "localhost:6379" 2 [] =
      (Returns (Some p0, None), w0) /\
    buf (Pool_ p0) = [client 0; client 1] /\
    run dial_fresh close_ok [OpGet; OpGet] (p0, w0) =
      Some (with_chan p0 (mkchan 2 []), w0) /\
    run dial_fresh close_ok
      [OpGet; OpGet; OpPut (client 0); OpPut (client 1); OpPut (client 7)]
      (p0, w0) =
      Some (with_chan p0 (mkchan 2 [client 0; client 1]),
            w0 ++ [EvClose (client 7) None]).
Proof.
  eexists _, _. split; [reflexivity |]. repeat split.
Qed.

(** C1: the dial branch of [Get] gives the client it dialed to
    [CarefullyPut] and then returns it.  On a pool of size 1 whose only
    idle connection is checked out, the next [Get] dials [client 1],
    returns it and leaves it idle in the channel as well; the [Get] after
    that pops the very same [client 1] for a second caller. *)
Theorem Get_returns_a_client_it_also_buffers :
  exists p0 w0,
    NewPool dial_fresh "tcp" "localhost:6379" 1 [] =
      (Returns (Some p0, None), w0) /\
    let '(r1, p1, w1) := Get dial_fresh close_ok p0 w0 in
    let '(r2, p2, w2) := Get dial_fresh close_ok p1 w1 in
    let '(r3, p3, w3) := Get dial_fresh close_ok p2 w2 in
    r1 = (client 0, None) /\
    buf (Pool_ p1) = [] /\
    r2 = (client 1, None) /\
    buf (Pool_ p2) = [client 1] /\
    r3 = (client 1, None).
Proof.
  eexists _, _. split; [reflexivity |]. repeat split.
Qed.

(** ** The theorems at concrete inputs *)

(** C5 as first stated does not hold: after [CarefullyPut] with an error
    that is not a command error the connection can be idle.  First when
    the caller had already put it back; then along the documented use,
    [conn, err := p.Get()] followed by [p.CarefullyPut(conn, &err)], on a
    pool of size 1 whose only idle connection is checked out. *)
Lemma CarefullyPut_can_leave_the_client_idle :
  let e := Some (OtherError "EOF") in
  connection_level e = true /\
  (let p := mkPool "tcp" "localhost:6379" (mkchan 2 []) in
   let '(p1, w1) := Put close_ok p (client 5) [] in
   In (client 5)
      (buf (Pool_ (fst (CarefullyPut close_ok p1 (client 5) (Some e) w1))))) /\
  (exists p0 w0,
     NewPool dial_fresh "tcp" "localhost:6379" 1 [] =
       (Returns (Some p0, None), w0) /\
     let '(r1, p1, w1) := Get dial_fresh close_ok p0 w0 in
     let '(r2, p2, w2) := Get dial_fresh close_ok p1 w1 in
     r2 = (client 1, None) /\
     In (client 1)
        (buf (Pool_ (fst (CarefullyPut close_ok p2 (client 1) (Some e)
                            w2))))).
Proof.
  split; [reflexivity |]. split.
  - simpl. auto.
  - eexists _, _. split; [reflexivity |]. simpl. auto.
Qed.

Lemma CarefullyPut_by_error_class_witness :
  let p := mkPool "tcp" "localhost:6379" (mkchan 2 [client 1]) in
  (connection_level (Some (CmdError "ERR wrong type")) = false /\
   CarefullyPut close_ok p (client 2) (Some (Some (CmdError "ERR wrong type")))
     [] = Put close_ok p (client 2) []) /\
  (connection_level (Some (OtherError "EOF")) = true /\
   CarefullyPut close_ok p (client 2) (Some (Some (OtherError "EOF"))) []
     = (p, []) /\
   (In (client 2)
       (buf (Pool_ (fst (CarefullyPut close_ok p (client 2)
                           (Some (Some (OtherError "EOF"))) []))))
    <-> In (client 2) (buf (Pool_ p)))).
Proof.
  intros p. split.
  - split; [reflexivity |].
    apply (proj1 (proj2 (CarefullyPut_by_error_class close_ok p (client 2)
                           (Some (CmdError "ERR wrong type")) []))).
    reflexivity.
  - split; [reflexivity |].
    apply (proj2 (proj2 (CarefullyPut_by_error_class close_ok p (client 2)
                           (Some (OtherError "EOF")) []))).
    reflexivity.
Defined.

Lemma Get_nonempty_returns_buffered_witness :
  let p := mkPool "tcp" "localhost:6379" (mkchan 2 [client 1; client 2]) in
  0 < idle_count p /\
  exists c rest,
    buf (Pool_ p) = c :: rest /\
    Get dial_refuse close_ok p [] =
      ((c, None), with_chan p (mkchan (size_of p) rest), []) /\
    count_dials (snd (Get dial_refuse close_ok p [])) = count_dials [].
Proof.
  intros p. split.
  - unfold idle_count; simpl; lia.
  - apply (Get_nonempty_returns_buffered dial_refuse close_ok p []).
    unfold idle_count; simpl; lia.
Defined.

Lemma Get_empty_dials_once_witness :
  let p := mkPool "tcp" "localhost:6379" (mkchan 0 []) in
  idle_count p = 0 /\
  dial_refuse [] (Network p) (Addr p) =
    (nil_client, Some (OtherError "connection refused")) /\
  Get dial_refuse close_ok p [] =
    ((nil_client, Some (OtherError "connection refused")), p,
     [EvDial "tcp" "localhost:6379" nil_client
        (Some (OtherError "connection refused"))]).
Proof.
  intros p. split; [reflexivity |]. split; [reflexivity |].
  exact (proj1 (Get_empty_dials_once dial_refuse close_ok p [] nil_client
                  (Some (OtherError "connection refused"))
                  eq_refl eq_refl)).
Defined.



Lemma NewPool_dial_failure_witness :
  (0 <= 2)%Z /\
  In (EvDial "tcp" "localhost:6379" nil_client
        (Some (OtherError "connection refused")))
     (snd (NewPool (dial_upto 1) "tcp" "localhost:6379" 2 [])) /\
  fst (NewPool (dial_upto 1) "tcp" "localhost:6379" 2 []) =
    Returns (None, Some (OtherError "connection refused")).
Proof.
  assert (H2 : (0 <= 2)%Z) by lia.
  split; [exact H2 |]. split; [right; left; reflexivity |].
  destruct (NewPool_dial_failure (dial_upto 1) "tcp" "localhost:6379" 2 []
              H2) as (out & evs & Heq & Hfail).
  rewrite Heq. simpl.
  apply (Hfail nil_client (OtherError "connection refused")).
  assert (Hevs : evs = snd (NewPool (dial_upto 1) "tcp" "localhost:6379" 2 []))
    by (rewrite Heq; reflexivity).
  rewrite Hevs. right; left; reflexivity.
Defined.

Lemma idle_count_never_exceeds_size_witness :
  let p0 := mkPool "tcp" "localhost:6379" (mkchan 1 [client 0]) in
  let w1 := [EvDial "tcp" "localhost:6379" (client 0) None] in
  let ops := [OpPut (client 5); OpGet; OpGet; OpPut (client 6);
              OpCarefullyPut (client 7) (Some None); OpEmpty; OpGet] in
  constructed dial_fresh "tcp" "localhost:6379" 1 [] p0 w1 /\
  exists p w,
    run dial_fresh close_ok ops (p0, w1) = Some (p, w) /\
    (Z.of_nat (idle_count p) <= 1)%Z.
Proof.
  intros p0 w1 ops.
  assert (Hc : constructed dial_fresh "tcp" "localhost:6379" 1 [] p0 w1)
    by (left; reflexivity).
  split; [exact Hc |].
  apply (idle_count_never_exceeds_size dial_fresh close_ok
           "tcp" "localhost:6379" 1 [] p0 w1 ops Hc).
Defined.

Lemma Get_size_zero_closes_fresh_witness :
  let p0 := mkPool "tcp" "localhost:6379" (mkchan 0 []) in
  let w := [EvClose (client 5) (Some (OtherError
                                         "use of closed network connection"))] in
  constructed dial_fresh "tcp" "localhost:6379" 0 [] p0 [] /\
  run dial_fresh close_fails [OpPut (client 5)] (p0, []) = Some (p0, w) /\
  dial_fresh w "tcp" "localhost:6379" = (client 1, None) /\
  Get dial_fresh close_fails p0 w =
    ((client 1, None), p0,
     w ++ [EvDial "tcp" "localhost:6379" (client 1) None;
           EvClose (client 1)
             (Some (OtherError "use of closed network connection"))]).
Proof.
  intros p0 w.
  assert (Hc : constructed dial_fresh "tcp" "localhost:6379" 0 [] p0 [])
    by (left; reflexivity).
  split; [exact Hc |]. split; [reflexivity |]. split; [reflexivity |].
  exact (Get_size_zero_closes_fresh dial_fresh close_fails
           "tcp" "localhost:6379" [] p0 [] [OpPut (client 5)] p0 w
           (client 1) Hc eq_refl eq_refl).
Defined.

(** ** More on what the code does *)

Lemma dialed_clients_app (w1 w2 : World) :
  dialed_clients (w1 ++ w2) = dialed_clients w1 ++ dialed_clients w2.
Proof.
  induction w1 as [| [n a c e | c e] w1 IH]; simpl;
    [reflexivity | now rewrite IH | assumption].
Qed.

Lemma closed_clients_of_closes_nil (evs : World) :
  forallb is_dial evs = true -> closed_clients evs = [].
Proof.
  induction evs as [| [n a c e | c e] evs IH]; simpl;
    [reflexivity | assumption | discriminate].
Qed.

Section MoreFacts.

Variable dial : World -> string -> string -> Client * error.
Variable close : World -> Client -> error.

(** What the dialing loop of [NewPool] leaves behind, in full. *)
Lemma dial_all_shape (network addr : string) (n : nat) :
  forall (w : World) (conns : list Client) (e : error) (w1 : World),
    dial_all dial network addr n w = ((conns, e), w1) ->
    exists evs,
      w1 = w ++ evs /\
      forallb is_dial evs = true /\
      length evs <= n /\
      dialed_clients evs = conns /\
      (e = None -> length evs = n /\ forallb dial_ok evs = true) /\
      (forall x, e = Some x ->
         exists before conn,
           evs = before ++ [EvDial network addr conn (Some x)] /\
           forallb dial_ok before = true).
Proof.
  induction n as [| n IH]; intros w conns e w1; simpl.
  - intros [= <- <- <-]. exists []. rewrite app_nil_r.
    repeat split; auto. discriminate.
  - unfold Dial. destruct (dial w network addr) as [conn e0].
    destruct e0 as [x |].
    + intros [= <- <- <-]. exists [EvDial network addr conn (Some x)].
      repeat split; simpl; try lia; try discriminate.
      intros y [= <-]. exists [], conn. auto.
    + destruct (dial_all dial network addr n
                  (w ++ [EvDial network addr conn None]))
        as [[conns' e'] w2] eqn:Hrec.
      intros [= <- <- <-].
      destruct (IH _ _ _ _ Hrec)
        as (evs & -> & Hd & Hlen & Hcs & Hok & Hfail).
      exists (EvDial network addr conn None :: evs).
      rewrite <- app_assoc. simpl. rewrite Hcs.
      repeat split; auto; try lia.
      * destruct (Hok H). lia.
      * destruct (Hok H). assumption.
      * intros x Hx. destruct (Hfail x Hx) as (before & c' & -> & Hb).
        exists (EvDial network addr conn None :: before), c'. auto.
Qed.

(** X1: with a negative size both constructors panic before any dial is
    made; [NewOrEmptyPool] is no help there. *)
Theorem constructors_panic_on_negative_size (network addr : string)
        (size : Z) (w : World) :
  (size < 0)%Z ->
  NewPool dial network addr size w = (Panics, w) /\
  NewOrEmptyPool dial network addr size w = (Panics, w).
Proof.
  intros H. unfold NewOrEmptyPool.
  rewrite (NewPool_negative dial network addr size w H). auto.
Qed.

(** X2: when a dial fails, [NewPool] stops there: the failed dial is the
    last call it makes, every dial before it succeeded, there are at
    most [size] dials, and [Close] is never called, so the clients dialed
    before the failure stay open and belong to no pool. *)
Theorem NewPool_stops_at_first_failure (network addr : string) (size : Z)
        (w w1 : World) (x : err) :
  (0 <= size)%Z ->
  NewPool dial network addr size w = (Returns (None, Some x), w1) ->
  exists before conn,
    w1 = w ++ before ++ [EvDial network addr conn (Some x)] /\
    forallb dial_ok before = true /\
    (Z.of_nat (length before) < size)%Z /\
    closed_clients (before ++ [EvDial network addr conn (Some x)]) = [].
Proof.
  intros Hsize Hnew.
  destruct (dial_all dial network addr (Z.to_nat size) w)
    as [[conns e] w2] eqn:Hd.
  destruct (NewPool_returns dial network addr size w Hsize conns e w2 Hd)
    as [Hnew' _].
  rewrite Hnew in Hnew'.
  destruct e as [y |]; [| discriminate]. injection Hnew' as -> ->.
  destruct (dial_all_shape _ _ _ _ _ _ _ Hd)
    as (evs & -> & Hdials & Hlen & _ & _ & Hfail).
  destruct (Hfail y eq_refl) as (before & conn & -> & Hb).
  exists before, conn. repeat split; auto.
  - rewrite length_app in Hlen. simpl in Hlen. lia.
  - now apply closed_clients_of_closes_nil.
Qed.

(** X3: when [NewPool] returns a pool it has made exactly [size] dials,
    all of them successful, and nothing else; the idle clients are the
    dialed ones, in the order they were dialed. *)
Theorem NewPool_success_buffers_dialed_clients (network addr : string)
        (size : Z) (w w1 : World) (p : Pool) :
  NewPool dial network addr size w = (Returns (Some p, None), w1) ->
  exists evs,
    w1 = w ++ evs /\
    forallb dial_ok evs = true /\
    Z.of_nat (length evs) = size /\
    buf (Pool_ p) = dialed_clients evs.
Proof.
  intros Hnew.
  destruct (Z.lt_ge_cases size 0) as [Hneg | Hsize].
  { rewrite (NewPool_negative dial network addr size w Hneg) in Hnew.
    discriminate. }
  destruct (dial_all dial network addr (Z.to_nat size) w)
    as [[conns e] w2] eqn:Hd.
  destruct (NewPool_returns dial network addr size w Hsize conns e w2 Hd)
    as [Hnew' _].
  rewrite Hnew in Hnew'.
  destruct e as [y |]; [discriminate |]. injection Hnew' as -> ->.
  destruct (dial_all_shape _ _ _ _ _ _ _ Hd)
    as (evs & -> & _ & _ & Hcs & Hok & _).
  destruct (Hok eq_refl) as [Hlen Hall].
  exists evs. simpl. repeat split; auto. lia.
Qed.

(** X4: as many [Get]s as there are idle connections return exactly the
    idle connections, oldest first, each with a nil error, without a
    single call to the collaborator, and leave nothing idle. *)
Theorem Get_n_drains_in_order (p : Pool) (w : World) :
  Get_n dial close (idle_count p) p w =
    (map (fun c => (c, None)) (buf (Pool_ p)),
     with_chan p (mkchan (size_of p) []), w).
Proof.
  destruct p as [n a [k b]]. unfold idle_count, size_of. simpl.
  induction b as [| c rest IH]; [reflexivity |].
  cbn [length Get_n].
  rewrite (Get_pops dial close (mkPool n a (mkchan k (c :: rest))) w c rest
             eq_refl).
  unfold with_chan, size_of in *. simpl in *. rewrite IH. reflexivity.
Qed.

(** X5: the channel is first in, first out: after a [Put] that found
    room, [Get] returns the oldest idle connection, which is the one
    just put only if nothing was idle before; neither call touches the
    collaborator. *)
Theorem Get_after_Put_returns_oldest (p : Pool) (conn : Client) (w : World) :
  idle_count p < size_of p ->
  let '(p1, w1) := Put close p conn w in
  Get dial close p1 w1 =
    ((hd conn (buf (Pool_ p)), None),
     with_chan p (mkchan (size_of p) (tl (buf (Pool_ p) ++ [conn]))),
     w).
Proof.
  intros Hroom. rewrite (Put_room close p conn w Hroom).
  destruct (buf (Pool_ p)) as [| c rest] eqn:Hb; simpl.
  - now rewrite (Get_pops dial close
                   (with_chan p (mkchan (size_of p) [conn])) w conn []
                   eq_refl).
  - now rewrite (Get_pops dial close
                   (with_chan p (mkchan (size_of p) (c :: rest ++ [conn])))
                   w c (rest ++ [conn]) eq_refl).
Qed.


(** X8: when nothing is idle and the dial fails with an error that is
    not a command error, [Get] returns what the dial returned and leaves
    the pool as it was; the dial is its only call. *)
Theorem Get_dial_error_leaves_pool (p : Pool) (w : World) (conn : Client)
        (x : err) :
  idle_count p = 0 ->
  dial w (Network p) (Addr p) = (conn, Some x) ->
  is_CmdError x = false ->
  Get dial close p w =
    ((conn, Some x), p, w ++ [EvDial (Network p) (Addr p) conn (Some x)]).
Proof.
  intros H0 Hd Hx. rewrite (Get_dials dial close p w conn (Some x) H0 Hd).
  rewrite CarefullyPut_broken by (simpl; now rewrite Hx). reflexivity.
Qed.

(** Each call extends the history, dials at most once and only in [Get],
    dials only the pool's own network and address, and keeps the pool's
    fields. *)
Lemma step_history (o : op) (p : Pool) (w : World) :
  exists p' evs,
    step dial close o (p, w) = Some (p', w ++ evs) /\
    Network p' = Network p /\ Addr p' = Addr p /\
    Forall (dial_goes_to (Network p) (Addr p)) evs /\
    count_dials evs <= count_gets [o].
Proof.
  assert (HP : forall conn w0, exists p' evs,
             Put close p conn w0 = (p', w0 ++ evs) /\
             Network p' = Network p /\ Addr p' = Addr p /\
             Forall (dial_goes_to (Network p) (Addr p)) evs /\
             count_dials evs = 0).
  { intros conn w0. unfold Put.
    destruct (try_send (Pool_ p) conn) as [ch |].
    - exists (with_chan p ch), []. rewrite app_nil_r. repeat split; auto.
    - exists p, [EvClose conn (close w0 conn)]. simpl.
      repeat split; auto. constructor; simpl; auto. }
  assert (HC : forall conn pe w0, exists p' evs,
             CarefullyPut close p conn pe w0 = (p', w0 ++ evs) /\
             Network p' = Network p /\ Addr p' = Addr p /\
             Forall (dial_goes_to (Network p) (Addr p)) evs /\
             count_dials evs = 0).
  { intros conn pe w0.
    destruct (CarefullyPut_cases close p conn pe w0) as [-> | ->];
      [apply HP |].
    exists p, []. rewrite app_nil_r. repeat split; auto. }
  destruct o as [| conn | conn pe |]; cbn [step].
  - unfold Get, try_recv. destruct (buf (Pool_ p)) as [| c rest].
    + unfold Dial. destruct (dial w (Network p) (Addr p)) as [conn e].
      destruct (HC conn (Some e) (w ++ [EvDial (Network p) (Addr p) conn e]))
        as (p' & evs & -> & Hn & Ha & Hall & Hcnt).
      exists p', (EvDial (Network p) (Addr p) conn e :: evs).
      rewrite <- app_assoc. simpl. repeat split; auto.
      * constructor; simpl; auto.
      * change (count_dials (EvDial (Network p) (Addr p) conn e :: evs))
          with (S (count_dials evs)). unfold count_gets. simpl. lia.
    + exists (with_chan p (mkchan (cap (Pool_ p)) rest)), [].
      rewrite app_nil_r. repeat split; auto. unfold count_dials. simpl. lia.
  - destruct (HP conn w) as (p' & evs & -> & Hn & Ha & Hall & Hcnt).
    exists p', evs. repeat split; auto. lia.
  - destruct (HC conn pe w) as (p' & evs & -> & Hn & Ha & Hall & Hcnt).
    exists p', evs. repeat split; auto. lia.
  - rewrite (Empty_returns close p w).
    destruct (close_all_history close (buf (Pool_ p)) w)
      as (evs & -> & Hc & _).
    exists (with_chan p (mkchan (size_of p) [])), evs.
    repeat split; auto.
    + clear - Hc. induction evs as [| [n a c e | c e] evs IH];
        simpl in *; [constructor | discriminate |].
      constructor; simpl; auto.
    + rewrite (count_dials_closes evs Hc). lia.
Qed.

Lemma count_gets_cons (o : op) (ops : list op) :
  count_gets (o :: ops) = count_gets [o] + count_gets ops.
Proof.
  unfold count_gets. simpl. destruct o; reflexivity.
Qed.

Lemma run_history (ops : list op) :
  forall (p : Pool) (w : World),
  exists p' evs,
    run dial close ops (p, w) = Some (p', w ++ evs) /\
    Network p' = Network p /\ Addr p' = Addr p /\
    Forall (dial_goes_to (Network p) (Addr p)) evs /\
    count_dials evs <= count_gets ops.
Proof.
  induction ops as [| o ops IH]; intros p w.
  - exists p, []. rewrite app_nil_r. simpl. repeat split; auto.
  - destruct (step_history o p w) as (p1 & evs1 & Hs & Hn1 & Ha1 & Hall1 & Hc1).
    destruct (IH p1 (w ++ evs1)) as (p2 & evs2 & Hr & Hn2 & Ha2 & Hall2 & Hc2).
    exists p2, (evs1 ++ evs2). cbn [run]. rewrite Hs. cbv beta iota.
    rewrite <- app_assoc in Hr.
    rewrite Hn1, Ha1 in Hall2. rewrite count_dials_app, count_gets_cons.
    split; [exact Hr |].
    repeat split; try congruence; try lia; try (apply Forall_app; auto).
Qed.

(** X6: a sequence of calls makes at most one dial for each [Get] in it;
    [Put], [CarefullyPut] and [Empty] never dial. *)
Theorem run_dials_at_most_once_per_Get (ops : list op) (p : Pool)
        (w : World) :
  exists p' w',
    run dial close ops (p, w) = Some (p', w') /\
    count_dials w' <= count_dials w + count_gets ops.
Proof.
  destruct (run_history ops p w) as (p' & evs & Hr & _ & _ & _ & Hc).
  exists p', (w ++ evs). split; [exact Hr |].
  rewrite count_dials_app. lia.
Qed.

Lemma constructed_history (network addr : string) (size : Z)
      (w : World) (p : Pool) (w1 : World) :
  constructed dial network addr size w p w1 ->
  exists evs, w1 = w ++ evs /\ Forall (dial_goes_to network addr) evs.
Proof.
  intros Hc.
  destruct (Z.lt_ge_cases size 0) as [Hneg | Hpos].
  { unfold constructed, NewOrEmptyPool in Hc.
    rewrite (NewPool_negative dial network addr size w Hneg) in Hc.
    destruct Hc; discriminate. }
  destruct (dial_all dial network addr (Z.to_nat size) w)
    as [[conns e] w2] eqn:Hd.
  destruct (NewPool_returns dial network addr size w Hpos conns e w2 Hd)
    as [Hnew _].
  destruct (dial_all_history dial _ _ _ _ _ _ _ Hd) as (evs & -> & Hev & _).
  assert (Hw : w1 = w ++ evs).
  { unfold constructed, NewOrEmptyPool in Hc. rewrite Hnew in Hc.
    destruct e; destruct Hc as [Hc | Hc]; congruence. }
  exists evs. split; [exact Hw |].
  apply Forall_forall. intros ev Hin.
  destruct (Hev ev Hin) as (conn & e0 & -> & _). simpl. auto.
Qed.

(** X9: the network and the address given to the constructor are the
    ones used ever after: whatever calls follow, the pool keeps them, and
    every dial made during construction or by a later call is a dial to
    that network and address. *)
Theorem pool_dials_only_its_endpoint (network addr : string) (size : Z)
        (w0 : World) (p0 : Pool) (w1 : World) (ops : list op) :
  constructed dial network addr size w0 p0 w1 ->
  exists p evs,
    run dial close ops (p0, w1) = Some (p, w0 ++ evs) /\
    Network p = network /\ Addr p = addr /\
    Forall (dial_goes_to network addr) evs.
Proof.
  intros Hc.
  destruct (constructed_config dial network addr size w0 p0 w1 Hc)
    as (_ & Hn & Ha & _ & _).
  destruct (constructed_history network addr size w0 p0 w1 Hc)
    as (evs0 & -> & Hall0).
  destruct (run_history ops p0 (w0 ++ evs0))
    as (p & evs & Hr & Hn' & Ha' & Hall & _).
  rewrite Hn, Ha in Hall.
  exists p, (evs0 ++ evs). rewrite app_assoc.
  repeat split; try congruence. apply Forall_app. auto.
Qed.

(** X10: putting back a batch of connections one after the other keeps
    as many as there is room for, the first ones, in order, and closes
    all the others, in order; no dial is made. *)
Theorem Puts_keep_first_and_close_rest (conns : list Client) :
  forall (p : Pool) (w : World),
  exists p' w',
    run dial close (map OpPut conns) (p, w) = Some (p', w') /\
    buf (Pool_ p') =
      buf (Pool_ p) ++ firstn (size_of p - idle_count p) conns /\
    closed_clients w' =
      closed_clients w ++ skipn (size_of p - idle_count p) conns /\
    count_dials w' = count_dials w.
Proof.
  induction conns as [| c conns IH]; intros p w.
  - exists p, w. simpl. rewrite firstn_nil, skipn_nil, !app_nil_r. auto.
  - cbn [map run step].
    destruct (Nat.lt_ge_cases (idle_count p) (size_of p)) as [Hroom | Hfull].
    + rewrite (Put_room close p c w Hroom).
      set (p1 := with_chan p (mkchan (size_of p) (buf (Pool_ p) ++ [c]))).
      destruct (IH p1 w) as (p' & w' & Hr & Hb & Hcl & Hd).
      exists p', w'. split; [exact Hr |].
      assert (H1 : size_of p1 - idle_count p1
                   = size_of p - idle_count p - 1).
      { unfold p1, idle_count, size_of. simpl. rewrite length_app.
        simpl. lia. }
      rewrite H1 in Hb, Hcl.
      destruct (size_of p - idle_count p) as [| r] eqn:Hr0; [lia |].
      replace (S r - 1) with r in * by lia. simpl.
      rewrite Hb, Hcl. unfold p1. simpl. rewrite <- app_assoc. auto.
    + rewrite (Put_full close p c w Hfull).
      destruct (IH p (w ++ [EvClose c (close w c)]))
        as (p' & w' & Hr & Hb & Hcl & Hd).
      exists p', w'. split; [exact Hr |].
      replace (size_of p - idle_count p) with 0 in * by lia. simpl in *.
      rewrite Hb, Hcl, Hd, closed_clients_app, count_dials_app.
      simpl. rewrite <- app_assoc. simpl.
      unfold count_dials at 2. simpl. repeat split; lia.
Qed.

(** X11: when [Get] has dialed because nothing was idle and the channel
    had room, giving the client back through [CarefullyPut] with an error
    that is not a command error leaves that client idle and open: the
    next [Get] returns it with a nil error. *)
Theorem broken_client_stays_idle_after_dialing_Get (p : Pool) (w : World)
        (conn : Client) (e : error) :
  idle_count p = 0 ->
  0 < size_of p ->
  dial w (Network p) (Addr p) = (conn, None) ->
  connection_level e = true ->
  let '(r, p1, w1) := Get dial close p w in
  let '(p2, w2) := CarefullyPut close p1 conn (Some e) w1 in
  r = (conn, None) /\
  buf (Pool_ p2) = [conn] /\
  closed_clients w2 = closed_clients w /\
  fst (fst (Get dial close p2 w2)) = (conn, None).
Proof.
  intros H0 Hcap Hd He.
  rewrite (Get_dial_branch_buffers dial close p w conn H0 Hcap Hd).
  rewrite (CarefullyPut_broken close _ conn e _ He).
  repeat split.
  rewrite closed_clients_app. simpl. apply app_nil_r.
Qed.

(** X12: on a pool of capacity 1 with nothing idle, a [Get] that dials
    followed by [CarefullyPut] of the returned client with a nil error or
    a command error calls [Close] on that client and leaves it idle all
    the same: the next [Get] returns the closed client with a nil
    error. *)
Theorem Get_then_CarefullyPut_on_size_one (p : Pool) (w : World)
        (conn : Client) (e : error) :
  idle_count p = 0 ->
  size_of p = 1 ->
  dial w (Network p) (Addr p) = (conn, None) ->
  connection_level e = false ->
  let '(r, p1, w1) := Get dial close p w in
  let '(p2, w2) := CarefullyPut close p1 conn (Some e) w1 in
  r = (conn, None) /\
  buf (Pool_ p2) = [conn] /\
  closed_clients w2 = closed_clients w ++ [conn] /\
  fst (fst (Get dial close p2 w2)) = (conn, None).
Proof.
  intros H0 Hcap Hd He.
  assert (Hpos : 0 < size_of p) by lia.
  rewrite (Get_dial_branch_buffers dial close p w conn H0 Hpos Hd).
  rewrite (CarefullyPut_sound close _ conn e _ He).
  rewrite Put_full by (unfold size_of, idle_count in *; simpl; lia).
  repeat split.
  rewrite !closed_clients_app. simpl. now rewrite app_nil_r.
Qed.

Lemma Put_origin (p : Pool) (conn : Client) (w : World) :
  exists p' evs,
    Put close p conn w = (p', w ++ evs) /\
    dialed_clients evs = [] /\
    forall c, In c (buf (Pool_ p')) \/ In c (closed_clients evs) ->
              In c (buf (Pool_ p)) \/ c = conn.
Proof.
  unfold Put. destruct (try_send (Pool_ p) conn) as [ch |] eqn:Hs.
  - apply try_send_Some in Hs. destruct Hs as [_ ->].
    exists (with_chan p (mkchan (cap (Pool_ p)) (buf (Pool_ p) ++ [conn]))), [].
    rewrite app_nil_r. simpl. repeat split.
    intros c [H | []]. apply in_app_iff in H. simpl in H. intuition.
  - exists p, [EvClose conn (close w conn)]. simpl. repeat split.
    intros c [H | [H | []]]; auto.
Qed.

Lemma CarefullyPut_origin (p : Pool) (conn : Client) (pe : option error)
      (w : World) :
  exists p' evs,
    CarefullyPut close p conn pe w = (p', w ++ evs) /\
    dialed_clients evs = [] /\
    forall c, In c (buf (Pool_ p')) \/ In c (closed_clients evs) ->
              In c (buf (Pool_ p)) \/ c = conn.
Proof.
  destruct (CarefullyPut_cases close p conn pe w) as [-> | ->];
    [apply Put_origin |].
  exists p, []. rewrite app_nil_r. simpl. repeat split.
  intros c [H | []]. auto.
Qed.

Lemma step_origin (o : op) (p : Pool) (w : World) :
  exists p' evs,
    step dial close o (p, w) = Some (p', w ++ evs) /\
    forall c, In c (buf (Pool_ p')) \/ In c (closed_clients evs) ->
              In c (buf (Pool_ p)) \/ In c (dialed_clients evs) \/
              In c (given_clients [o]).
Proof.
  destruct o as [| conn | conn pe |]; cbn [step].
  - unfold Get, try_recv. destruct (buf (Pool_ p)) as [| c0 rest] eqn:Hb.
    + unfold Dial. destruct (dial w (Network p) (Addr p)) as [conn e].
      destruct (CarefullyPut_origin p conn (Some e)
                  (w ++ [EvDial (Network p) (Addr p) conn e]))
        as (p' & evs & -> & Hd & Hin).
      exists p', (EvDial (Network p) (Addr p) conn e :: evs).
      rewrite <- app_assoc. split; [reflexivity |].
      intros c Hc. simpl in Hc. destruct (Hin c Hc) as [H | ->].
      * rewrite Hb in H. destruct H.
      * right; left; simpl; auto.
    + exists (with_chan p (mkchan (cap (Pool_ p)) rest)), [].
      rewrite app_nil_r. split; [reflexivity |].
      simpl. intros c [H | []]. auto.
  - destruct (Put_origin p conn w) as (p' & evs & -> & Hd & Hin).
    exists p', evs. split; [reflexivity |].
    intros c Hc. destruct (Hin c Hc) as [H | ->]; simpl; auto.
  - destruct (CarefullyPut_origin p conn pe w) as (p' & evs & -> & Hd & Hin).
    exists p', evs. split; [reflexivity |].
    intros c Hc. destruct (Hin c Hc) as [H | ->]; simpl; auto.
  - rewrite (Empty_returns close p w).
    destruct (close_all_history close (buf (Pool_ p)) w)
      as (evs & -> & _ & Hcl).
    exists (with_chan p (mkchan (size_of p) [])), evs.
    split; [reflexivity |]. rewrite Hcl. simpl. intros c [[] | H]. auto.
Qed.

Lemma given_clients_cons (o : op) (ops : list op) :
  given_clients (o :: ops) = given_clients [o] ++ given_clients ops.
Proof.
  destruct o; reflexivity.
Qed.

(** X13: the pool makes up no client.  After any sequence of calls,
    every client that is idle and every client [Close] was called on was
    idle at the start, or was returned by one of the dials made, or was
    handed in by a caller through [Put] or [CarefullyPut]. *)
Theorem idle_and_closed_clients_have_an_origin (ops : list op) :
  forall (p : Pool) (w : World),
  exists p' evs,
    run dial close ops (p, w) = Some (p', w ++ evs) /\
    forall c, In c (buf (Pool_ p')) \/ In c (closed_clients evs) ->
              In c (buf (Pool_ p)) \/ In c (dialed_clients evs) \/
              In c (given_clients ops).
Proof.
  induction ops as [| o ops IH]; intros p w.
  - exists p, []. rewrite app_nil_r. split; [reflexivity |].
    simpl. intros c [H | []]. auto.
  - destruct (step_origin o p w) as (p1 & evs1 & Hs & H1).
    destruct (IH p1 (w ++ evs1)) as (p2 & evs2 & Hr & H2).
    exists p2, (evs1 ++ evs2). cbn [run]. rewrite Hs. cbv beta iota.
    rewrite <- app_assoc in Hr. split; [exact Hr |].
    intros c Hc.
    rewrite closed_clients_app in Hc.
    rewrite dialed_clients_app, given_clients_cons.
    rewrite !in_app_iff in *.
    specialize (H1 c). specialize (H2 c). tauto.
Qed.

End MoreFacts.

Lemma constructors_panic_on_negative_size_witness :
  (-1 < 0)%Z /\
  NewPool dial_fresh "tcp" "localhost:6379" (-1) [] = (Panics, []) /\
  NewOrEmptyPool dial_fresh "tcp" "localhost:6379" (-1) [] = (Panics, []).
Proof.
  assert (H : (-1 < 0)%Z) by lia.
  split; [exact H |].
  apply (constructors_panic_on_negative_size dial_fresh
           "tcp" "localhost:6379" (-1) [] H).
Defined.

Lemma NewPool_stops_at_first_failure_witness :
  let w1 := [EvDial "tcp" "localhost:6379" (client 0) None;
             EvDial "tcp" "localhost:6379" nil_client
               (Some (OtherError "connection refused"))] in
  (0 <= 3)%Z /\
  NewPool (dial_upto 1) "tcp" "localhost:6379" 3 [] =
    (Returns (None, Some (OtherError "connection refused")), w1) /\
  exists before conn,
    w1 = [] ++ before ++
           [EvDial "tcp" "localhost:6379" conn
              (Some (OtherError "connection refused"))] /\
    forallb dial_ok before = true /\
    (Z.of_nat (length before) < 3)%Z /\
    closed_clients
      (before ++ [EvDial "tcp" "localhost:6379" conn
                    (Some (OtherError "connection refused"))]) = [].
Proof.
  intros w1. assert (H : (0 <= 3)%Z) by lia.
  split; [exact H |]. split; [reflexivity |].
  apply (NewPool_stops_at_first_failure (dial_upto 1)
           "tcp" "localhost:6379" 3 [] w1
           (OtherError "connection refused") H eq_refl).
Defined.

Lemma NewPool_success_buffers_dialed_clients_witness :
  let w1 := [EvDial "tcp" "localhost:6379" (client 0) None;
             EvDial "tcp" "localhost:6379" (client 1) None] in
  let p := mkPool "tcp" "localhost:6379" (mkchan 2 [client 0; client 1]) in
  NewPool dial_fresh "tcp" "localhost:6379" 2 [] =
    (Returns (Some p, None), w1) /\
  exists evs,
    w1 = [] ++ evs /\
    forallb dial_ok evs = true /\
    Z.of_nat (length evs) = 2%Z /\
    buf (Pool_ p) = dialed_clients evs.
Proof.
  intros w1 p. split; [reflexivity |].
  apply (NewPool_success_buffers_dialed_clients dial_fresh
           "tcp" "localhost:6379" 2 [] w1 p eq_refl).
Defined.

Lemma Get_after_Put_returns_oldest_witness :
  let p := mkPool "tcp" "localhost:6379" (mkchan 3 [client 1; client 2]) in
  idle_count p < size_of p /\
  Get dial_refuse close_ok
    (mkPool "tcp" "localhost:6379" (mkchan 3 [client 1; client 2; client 9]))
    [] =
    ((client 1, None),
     mkPool "tcp" "localhost:6379" (mkchan 3 [client 2; client 9]), []).
Proof.
  intros p.
  assert (H : idle_count p < size_of p)
    by (unfold idle_count, size_of; simpl; lia).
  split; [exact H |].
  exact (Get_after_Put_returns_oldest dial_refuse close_ok p (client 9) [] H).
Defined.


Lemma Get_dial_error_leaves_pool_witness :
  let p := mkPool "tcp" "localhost:6379" (mkchan 2 []) in
  idle_count p = 0 /\
  dial_refuse [] (Network p) (Addr p) =
    (nil_client, Some (OtherError "connection refused")) /\
  is_CmdError (OtherError "connection refused") = false /\
  Get dial_refuse close_ok p [] =
    ((nil_client, Some (OtherError "connection refused")), p,
     [] ++ [EvDial (Network p) (Addr p) nil_client
              (Some (OtherError "connection refused"))]).
Proof.
  intros p. split; [reflexivity |]. split; [reflexivity |].
  split; [reflexivity |].
  apply (Get_dial_error_leaves_pool dial_refuse close_ok p [] nil_client
           (OtherError "connection refused") eq_refl eq_refl eq_refl).
Defined.

Lemma pool_dials_only_its_endpoint_witness :
  let p0 := mkPool "tcp" "localhost:6379" (mkchan 1 [client 0]) in
  let w1 := [EvDial "tcp" "localhost:6379" (client 0) None] in
  let ops := [OpGet; OpGet; OpPut (client 3); OpEmpty; OpGet] in
  constructed dial_fresh "tcp" "localhost:6379" 1 [] p0 w1 /\
  exists p evs,
    run dial_fresh close_ok ops (p0, w1) = Some (p, [] ++ evs) /\
    Network p = "tcp"%string /\ Addr p = "localhost:6379"%string /\
    Forall (dial_goes_to "tcp" "localhost:6379") evs.
Proof.
  intros p0 w1 ops.
  assert (Hc : constructed dial_fresh "tcp" "localhost:6379" 1 [] p0 w1)
    by (left; reflexivity).
  split; [exact Hc |].
  apply (pool_dials_only_its_endpoint dial_fresh close_ok
           "tcp" "localhost:6379" 1 [] p0 w1 ops Hc).
Defined.

Lemma broken_client_stays_idle_after_dialing_Get_witness :
  let p := mkPool "tcp" "localhost:6379" (mkchan 2 []) in
  let e := Some (OtherError "EOF") in
  idle_count p = 0 /\ 0 < size_of p /\
  dial_fresh [] (Network p) (Addr p) = (client 0, None) /\
  connection_level e = true /\
  buf (Pool_ (fst (CarefullyPut close_ok
                     (snd (fst (Get dial_fresh close_ok p [])))
                     (client 0) (Some e)
                     (snd (Get dial_fresh close_ok p [])))))
    = [client 0].
Proof.
  intros p e.
  assert (Hcap : 0 < size_of p) by (unfold size_of; simpl; lia).
  split; [reflexivity |]. split; [exact Hcap |].
  split; [reflexivity |]. split; [reflexivity |].
  exact (proj1 (proj2
           (broken_client_stays_idle_after_dialing_Get dial_fresh close_ok
              p [] (client 0) e eq_refl Hcap eq_refl eq_refl))).
Defined.

Lemma Get_then_CarefullyPut_on_size_one_witness :
  let p := mkPool "tcp" "localhost:6379" (mkchan 1 []) in
  idle_count p = 0 /\ size_of p = 1 /\
  dial_fresh [] (Network p) (Addr p) = (client 0, None) /\
  connection_level None = false /\
  closed_clients
    (snd (CarefullyPut close_ok
            (snd (fst (Get dial_fresh close_ok p [])))
            (client 0) (Some None)
            (snd (Get dial_fresh close_ok p []))))
    = closed_clients [] ++ [client 0].
Proof.
  intros p.
  split; [reflexivity |]. split; [reflexivity |].
  split; [reflexivity |]. split; [reflexivity |].
  exact (proj1 (proj2 (proj2
           (Get_then_CarefullyPut_on_size_one dial_fresh close_ok
              p [] (client 0) None eq_refl eq_refl eq_refl eq_refl)))).
Defined.
